(** * core-js-101, [src/06-objects-tasks.js]: the rectangle object and the
      CSS selector builder.

    The JavaScript objects are embedded shallowly.  A selector object is a
    record of its six data fields; its methods are computations in a small
    state-and-exception monad whose state is the receiver [this].  A [throw]
    leaves the receiver as the assignments made before it left it, because
    that is what a caller who catches the exception goes on to use. *)

From Stdlib Require Import String Ascii ZArith List Bool Lia.
From Stdlib Require Import Floats.PrimFloat.
Import ListNotations.

Local Open Scope string_scope.
Local Open Scope Z_scope.

(* ================================================================== *)
(** ** Rectangle (lines 23-31) *)
(* ================================================================== *)

(** JavaScript numbers are IEEE 754 binary64 values, and so is [float]. *)
Module RectangleTask.

Record RectangleObject := { width : float; height : float }.

(** [getArea() { return this.width * this.height; }] *)
Definition getArea (this : RectangleObject) : float :=
  (width this * height this)%float.

(** [function Rectangle(width, height) { return { width, height, getArea } }] *)
Definition Rectangle (width height : float) : RectangleObject :=
  {| width := width; height := height |}.

End RectangleTask.

(* ================================================================== *)
(** ** Exceptions and the method monad *)
(* ================================================================== *)

(** [new Error(msg)]: the source throws plain [Error] objects, told apart
    by their message only. *)
Record Error := { message : string }.

Inductive Completion (A : Type) : Type :=
| Normal (a : A)
| Throw (e : Error).
Arguments Normal {A} a.
Arguments Throw {A} e.

(** The six data fields every constructor function initialises. *)
Record Selector := {
  selectors : string;
  currentSelector : string;
  prevSelector : option string;   (* [None] is [null] *)
  elementCount : Z;
  idCount : Z;
  pseudoElemCount : Z
}.

(** A method body: runs on the receiver, ends normally or by a throw, and
    in both cases leaves a receiver behind. *)
Definition Method (A : Type) : Type := Selector -> Completion A * Selector.

Definition ret {A} (a : A) : Method A := fun this => (Normal a, this).

Definition bind {A B} (m : Method A) (k : A -> Method B) : Method B :=
  fun this =>
    match m this with
    | (Normal a, this') => k a this'
    | (Throw e, this') => (Throw e, this')
    end.

Definition throw {A} (e : Error) : Method A := fun this => (Throw e, this).

(** [read f] evaluates the expression [f] over the fields of [this]. *)
Definition read {A} (f : Selector -> A) : Method A :=
  fun this => (Normal (f this), this).

(** [assign upd] performs one assignment to a field of [this]. *)
Definition assign (upd : Selector -> Selector) : Method unit :=
  fun this => (Normal tt, upd this).

(** [if (c) { throw e; }] *)
Definition throw_if (c : bool) (e : Error) : Method unit :=
  if c then throw e else ret tt.

Declare Scope method_scope.
Delimit Scope method_scope with method.
Notation "x <- m ;; k" := (bind m (fun x => k))
  (at level 61, m at next level, right associativity) : method_scope.
Notation "m ;; k" := (bind m (fun _ => k))
  (at level 61, right associativity) : method_scope.
Local Open Scope method_scope.

(** Field assignments [this.f = v]. *)
Definition set_selectors (v : string) (this : Selector) : Selector :=
  {| selectors := v;
     currentSelector := currentSelector this;
     prevSelector := prevSelector this;
     elementCount := elementCount this;
     idCount := idCount this;
     pseudoElemCount := pseudoElemCount this |}.

Definition set_currentSelector (v : string) (this : Selector) : Selector :=
  {| selectors := selectors this;
     currentSelector := v;
     prevSelector := prevSelector this;
     elementCount := elementCount this;
     idCount := idCount this;
     pseudoElemCount := pseudoElemCount this |}.

Definition set_prevSelector (v : option string) (this : Selector) : Selector :=
  {| selectors := selectors this;
     currentSelector := currentSelector this;
     prevSelector := v;
     elementCount := elementCount this;
     idCount := idCount this;
     pseudoElemCount := pseudoElemCount this |}.

Definition set_idCount (v : Z) (this : Selector) : Selector :=
  {| selectors := selectors this;
     currentSelector := currentSelector this;
     prevSelector := prevSelector this;
     elementCount := elementCount this;
     idCount := v;
     pseudoElemCount := pseudoElemCount this |}.

Definition set_pseudoElemCount (v : Z) (this : Selector) : Selector :=
  {| selectors := selectors this;
     currentSelector := currentSelector this;
     prevSelector := prevSelector this;
     elementCount := elementCount this;
     idCount := idCount this;
     pseudoElemCount := v |}.

(* ================================================================== *)
(** ** The order table (line 152) *)
(* ================================================================== *)

Definition ORDER : list string :=
  ["element"; "id"; "class"; "attribute"; "pseudoClass"; "pseudoElement"].

(** [Array.prototype.indexOf]: the first index holding a value strictly
    equal to the one searched, [-1] when there is none.  The array holds
    strings, so [null] is never found. *)
Fixpoint indexOf_from (arr : list string) (searchElement : string) (i : Z) : Z :=
  match arr with
  | [] => -1
  | x :: rest =>
      if String.eqb x searchElement then i
      else indexOf_from rest searchElement (i + 1)
  end.

Definition indexOf (arr : list string) (searchElement : option string) : Z :=
  match searchElement with
  | None => -1
  | Some s => indexOf_from arr s 0
  end.

(** The two errors (lines 164 and 169, repeated in every method).  Both are
    [new Error(...)]; the names are the specification's. *)
Definition DuplicateFragmentError : Error :=
  {| message := "Element, id and pseudo-element should not occur more then one time inside the selector" |}.

Definition SequenceOrderError : Error :=
  {| message := "Selector parts should be arranged in the following order: element, id, class, attribute, pseudo-class, pseudo-element" |}.

(** The test every method makes after its two assignments:
    [ORDER.indexOf(this.prevSelector) > ORDER.indexOf(this.currentSelector)]. *)
Definition outOfOrder (this : Selector) : bool :=
  indexOf ORDER (prevSelector this) >? indexOf ORDER (Some (currentSelector this)).

(* ================================================================== *)
(** ** The methods of a selector object *)
(* ================================================================== *)

(** The six constructor functions [Element], [Id], [Class], [Attr],
    [PseudoClass], [PseudoElement] each install the same seven function
    bodies on [this] (lines 162-235, 246-319, 330-403, 414-487, 499-572 and
    584-657 are identical text), so each body is embedded once.
    [return this] hands back the receiver, so a chained call is the next
    method run on the same object: the methods return [unit] here. *)
Module SelectorMethods.

Definition element (value : string) : Method unit :=
  c <- read elementCount ;;
  throw_if (c >? 0) DuplicateFragmentError ;;
  cur <- read currentSelector ;;
  assign (set_prevSelector (Some cur)) ;;
  assign (set_currentSelector "element") ;;
  bad <- read outOfOrder ;;
  throw_if bad SequenceOrderError ;;
  s <- read selectors ;;
  assign (set_selectors (s ++ value)) ;;
  ret tt.

Definition id (value : string) : Method unit :=
  c <- read idCount ;;
  throw_if (c >? 0) DuplicateFragmentError ;;
  cur <- read currentSelector ;;
  assign (set_prevSelector (Some cur)) ;;
  assign (set_currentSelector "id") ;;
  bad <- read outOfOrder ;;
  throw_if bad SequenceOrderError ;;
  s <- read selectors ;;
  assign (set_selectors (s ++ "#" ++ value)) ;;
  n <- read idCount ;;
  assign (set_idCount (n + 1)) ;;
  ret tt.

Definition class (value : string) : Method unit :=
  cur <- read currentSelector ;;
  assign (set_prevSelector (Some cur)) ;;
  assign (set_currentSelector "class") ;;
  bad <- read outOfOrder ;;
  throw_if bad SequenceOrderError ;;
  s <- read selectors ;;
  assign (set_selectors (s ++ "." ++ value)) ;;
  ret tt.

Definition attr (value : string) : Method unit :=
  cur <- read currentSelector ;;
  assign (set_prevSelector (Some cur)) ;;
  assign (set_currentSelector "attribute") ;;
  bad <- read outOfOrder ;;
  throw_if bad SequenceOrderError ;;
  s <- read selectors ;;
  assign (set_selectors (s ++ "[" ++ value ++ "]")) ;;
  ret tt.

Definition pseudoClass (value : string) : Method unit :=
  cur <- read currentSelector ;;
  assign (set_prevSelector (Some cur)) ;;
  assign (set_currentSelector "pseudoClass") ;;
  bad <- read outOfOrder ;;
  throw_if bad SequenceOrderError ;;
  s <- read selectors ;;
  assign (set_selectors (s ++ ":" ++ value)) ;;
  ret tt.

Definition pseudoElement (value : string) : Method unit :=
  cur <- read currentSelector ;;
  assign (set_prevSelector (Some cur)) ;;
  assign (set_currentSelector "pseudoElement") ;;
  bad <- read outOfOrder ;;
  throw_if bad SequenceOrderError ;;
  c <- read pseudoElemCount ;;
  throw_if (c >? 0) DuplicateFragmentError ;;
  n <- read pseudoElemCount ;;
  assign (set_pseudoElemCount (n + 1)) ;;
  s <- read selectors ;;
  assign (set_selectors (s ++ "::" ++ value)) ;;
  ret tt.

(** [this.stringify = function () { return this.selectors; }] *)
Definition stringify (this : Selector) : string := selectors this.

End SelectorMethods.

(* ================================================================== *)
(** ** The constructor functions (lines 154-160, 238-244, ...) *)
(* ================================================================== *)

Definition Element (name : string) : Selector :=
  {| selectors := name;
     currentSelector := "element";
     prevSelector := None;
     elementCount := 1;
     idCount := 0;
     pseudoElemCount := 0 |}.

Definition Id (name : string) : Selector :=
  {| selectors := "#" ++ name;
     currentSelector := "id";
     prevSelector := None;
     elementCount := 0;
     idCount := 1;
     pseudoElemCount := 0 |}.

Definition Class (name : string) : Selector :=
  {| selectors := "." ++ name;
     currentSelector := "class";
     prevSelector := None;
     elementCount := 0;
     idCount := 0;
     pseudoElemCount := 0 |}.

Definition Attr (name : string) : Selector :=
  {| selectors := "[" ++ name ++ "]";
     currentSelector := "attribute";
     prevSelector := None;
     elementCount := 0;
     idCount := 0;
     pseudoElemCount := 0 |}.

Definition PseudoClass (name : string) : Selector :=
  {| selectors := ":" ++ name;
     currentSelector := "pseudoClass";
     prevSelector := None;
     elementCount := 0;
     idCount := 0;
     pseudoElemCount := 0 |}.

Definition PseudoElement (name : string) : Selector :=
  {| selectors := "::" ++ name;
     currentSelector := "pseudoElement";
     prevSelector := None;
     elementCount := 0;
     idCount := 0;
     pseudoElemCount := 1 |}.

(* ================================================================== *)
(** ** Combine (lines 661-669) *)
(* ================================================================== *)

(** What [combine] asks of its operands: a [stringify()] method. *)
Class Stringifiable (A : Type) : Type := stringify : A -> string.

#[export] Instance Stringifiable_Selector : Stringifiable Selector :=
  SelectorMethods.stringify.

(** [class Combine]: its only field is [this.string], set once by the
    constructor. *)
Record Combine := { Combine_string : string }.

(** [constructor(selector1, combinator, selector2)]: the template literal
    [`${selector1.stringify()} ${combinator} ${selector2.stringify()}`]. *)
Definition new_Combine {A B} `{Stringifiable A} `{Stringifiable B}
    (selector1 : A) (combinator : string) (selector2 : B) : Combine :=
  {| Combine_string :=
       stringify selector1 ++ " " ++ combinator ++ " " ++ stringify selector2 |}.

(** [stringify() { return this.string; }] *)
#[export] Instance Stringifiable_Combine : Stringifiable Combine :=
  Combine_string.

(* ================================================================== *)
(** ** The facade (lines 672-707) *)
(* ================================================================== *)

Module cssSelectorBuilder.

Definition element (value : string) : Selector := Element value.
Definition id (value : string) : Selector := Id value.
Definition class (value : string) : Selector := Class value.
Definition attr (value : string) : Selector := Attr value.
Definition pseudoClass (value : string) : Selector := PseudoClass value.
Definition pseudoElement (value : string) : Selector := PseudoElement value.

Definition combine {A B} `{Stringifiable A} `{Stringifiable B}
    (selector1 : A) (combinator : string) (selector2 : B) : Combine :=
  new_Combine selector1 combinator selector2.

End cssSelectorBuilder.

(* ================================================================== *)
(** ** Calls as data *)
(* ================================================================== *)

(** The six fragment kinds, one per method name, so that a sequence of
    calls can be quantified over. *)
Inductive Kind : Type :=
| KElement | KId | KClass | KAttr | KPseudoClass | KPseudoElement.

Definition Kind_eqb (a b : Kind) : bool :=
  match a, b with
  | KElement, KElement | KId, KId | KClass, KClass | KAttr, KAttr
  | KPseudoClass, KPseudoClass | KPseudoElement, KPseudoElement => true
  | _, _ => false
  end.

(** The string the method of that kind stores in [currentSelector]. *)
Definition kindName (k : Kind) : string :=
  match k with
  | KElement => "element"
  | KId => "id"
  | KClass => "class"
  | KAttr => "attribute"
  | KPseudoClass => "pseudoClass"
  | KPseudoElement => "pseudoElement"
  end.

(** The position of the kind in the canonical order. *)
Definition rank (k : Kind) : Z :=
  match k with
  | KElement => 0
  | KId => 1
  | KClass => 2
  | KAttr => 3
  | KPseudoClass => 4
  | KPseudoElement => 5
  end.

(** The canonical rendering of a fragment (spec, section 6). *)
Definition render (k : Kind) (value : string) : string :=
  match k with
  | KElement => value
  | KId => "#" ++ value
  | KClass => "." ++ value
  | KAttr => "[" ++ value ++ "]"
  | KPseudoClass => ":" ++ value
  | KPseudoElement => "::" ++ value
  end.

(** [b.element(v)], [b.id(v)], ...: the method of kind [k]. *)
Definition invoke (k : Kind) (value : string) : Method unit :=
  match k with
  | KElement => SelectorMethods.element value
  | KId => SelectorMethods.id value
  | KClass => SelectorMethods.class value
  | KAttr => SelectorMethods.attr value
  | KPseudoClass => SelectorMethods.pseudoClass value
  | KPseudoElement => SelectorMethods.pseudoElement value
  end.

(** [cssSelectorBuilder.element(v)], ...: the entry point of kind [k]. *)
Definition create (k : Kind) (value : string) : Selector :=
  match k with
  | KElement => cssSelectorBuilder.element value
  | KId => cssSelectorBuilder.id value
  | KClass => cssSelectorBuilder.class value
  | KAttr => cssSelectorBuilder.attr value
  | KPseudoClass => cssSelectorBuilder.pseudoClass value
  | KPseudoElement => cssSelectorBuilder.pseudoElement value
  end.

Definition Call : Type := (Kind * string)%type.

(** A method chain [b.m1(v1).m2(v2)...]: the first throw ends it. *)
Fixpoint chain (calls : list Call) : Method unit :=
  match calls with
  | [] => ret tt
  | (k, v) :: rest => invoke k v ;; chain rest
  end.

(** The receiver after a call whose exception, if any, the caller caught. *)
Definition after (k : Kind) (value : string) (this : Selector) : Selector :=
  snd (invoke k value this).

(** The counter a capped kind tests; the other kinds have none. *)
Definition counter (k : Kind) (this : Selector) : option Z :=
  match k with
  | KElement => Some (elementCount this)
  | KId => Some (idCount this)
  | KPseudoElement => Some (pseudoElemCount this)
  | _ => None
  end.

(** [element] and [id] test their counter before any assignment. *)
Definition guardedFirst (k : Kind) (this : Selector) : bool :=
  match k with
  | KElement => elementCount this >? 0
  | KId => idCount this >? 0
  | _ => false
  end.

(** The two assignments each method makes before its order test. *)
Definition recordAttempt (k : Kind) (this : Selector) : Selector :=
  set_currentSelector (kindName k)
    (set_prevSelector (Some (currentSelector this)) this).

(** The kinds of a call sequence follow the canonical order. *)
Fixpoint nondecreasing (last : Kind) (ks : list Kind) : bool :=
  match ks with
  | [] => true
  | k :: rest => (rank last <=? rank k) && nondecreasing k rest
  end.

Definition occurrences (k : Kind) (ks : list Kind) : Z :=
  Z.of_nat (List.length (List.filter (Kind_eqb k) ks)).

(** Canonical order, with element, id and pseudoElement at most once,
    the seed [k0] counted. *)
Definition canonical (k0 : Kind) (ks : list Kind) : bool :=
  nondecreasing k0 ks
  && (occurrences KElement (k0 :: ks) <=? 1)
  && (occurrences KId (k0 :: ks) <=? 1)
  && (occurrences KPseudoElement (k0 :: ks) <=? 1).

(** The concatenation of the renderings, in call order. *)
Fixpoint renderAll (calls : list Call) : string :=
  match calls with
  | [] => ""
  | (k, v) :: rest => render k v ++ renderAll rest
  end.

(** Nested [combine] expressions. *)
Inductive SelectorExpr : Type :=
| Simple (s : Selector)
| Combined (left : SelectorExpr) (combinator : string) (right : SelectorExpr).

#[export] Instance Stringifiable_sum : Stringifiable (Selector + Combine) :=
  fun o => match o with inl s => stringify s | inr c => stringify c end.

(** The object the expression evaluates to: a selector object at a leaf,
    a [Combine] object at a node. *)
Fixpoint build (e : SelectorExpr) : Selector + Combine :=
  match e with
  | Simple s => inl s
  | Combined l c r => inr (cssSelectorBuilder.combine (build l) c (build r))
  end.

(** What the expression should read as: operands in order, each
    combinator between single spaces. *)
Fixpoint flat (e : SelectorExpr) : string :=
  match e with
  | Simple s => SelectorMethods.stringify s
  | Combined l c r => flat l ++ " " ++ c ++ " " ++ flat r
  end.

(** [pseudoElement] tests its counter after the order test. *)
Definition guardedLast (k : Kind) (this : Selector) : bool :=
  match k with
  | KPseudoElement => pseudoElemCount this >? 0
  | _ => false
  end.

(** The assignments a method makes once its tests have passed. *)
Definition commit (k : Kind) (value : string) (this : Selector) : Selector :=
  match k with
  | KElement => set_selectors (selectors this ++ value) this
  | KId =>
      let this1 := set_selectors (selectors this ++ "#" ++ value) this in
      set_idCount (idCount this1 + 1) this1
  | KClass => set_selectors (selectors this ++ "." ++ value) this
  | KAttr => set_selectors (selectors this ++ "[" ++ value ++ "]") this
  | KPseudoClass => set_selectors (selectors this ++ ":" ++ value) this
  | KPseudoElement =>
      let this1 := set_pseudoElemCount (pseudoElemCount this + 1) this in
      set_selectors (selectors this1 ++ "::" ++ value) this1
  end.

(** The message of the error a call ended with, if it threw. *)
Definition thrownMessage {A} (r : Completion A * Selector) : option string :=
  match fst r with
  | Normal _ => None
  | Throw e => Some (message e)
  end.

(** The last kind of a call sequence, the seed's when it is empty. *)
Definition lastKind (k0 : Kind) (calls : list Call) : Kind :=
  List.last (List.map fst calls) k0.

(** A caller that catches every exception and goes on with the same
    object: the receiver after all the calls. *)
Fixpoint attempts (calls : list Call) (this : Selector) : Selector :=
  match calls with
  | [] => this
  | (k, v) :: rest => attempts rest (after k v this)
  end.

(** The calls among them that returned normally, that is, the fragments
    they appended. *)
Fixpoint appended (calls : list Call) (this : Selector) : list Call :=
  match calls with
  | [] => []
  | (k, v) :: rest =>
      match fst (invoke k v this) with
      | Normal _ => (k, v) :: appended rest (after k v this)
      | Throw _ => appended rest (after k v this)
      end
  end.



(* ================================================================== *)
(** ** Basic facts *)
(* ================================================================== *)

Lemma append_assoc (a b c : string) : (a ++ b) ++ c = a ++ (b ++ c).
Proof.
  induction a as [|ch a IH]; simpl; [reflexivity | now rewrite IH].
Qed.

Lemma append_empty_r (a : string) : a ++ "" = a.
Proof.
  induction a as [|ch a IH]; simpl; [reflexivity | now rewrite IH].
Qed.

Lemma indexOf_from_range (arr : list string) (s : string) (i : Z) :
  indexOf_from arr s i = -1 \/
  i <= indexOf_from arr s i < i + Z.of_nat (List.length arr).
Proof.
  revert i; induction arr as [|x rest IH]; intro i; simpl indexOf_from.
  - now left.
  - destruct (String.eqb x s).
    + right. simpl List.length. lia.
    + destruct (IH (i + 1)) as [H | H]; [now left | right].
      simpl List.length. lia.
Qed.

(** No string has an index in [ORDER] beyond that of ["pseudoElement"]. *)
Lemma indexOf_ORDER_le (s : option string) : indexOf ORDER s <= 5.
Proof.
  destruct s as [s|]; simpl indexOf; [|lia].
  destruct (indexOf_from_range ORDER s 0) as [H | H]; simpl in H; lia.
Qed.

Lemma indexOf_kindName (k : Kind) : indexOf ORDER (Some (kindName k)) = rank k.
Proof. destruct k; reflexivity. Qed.

Lemma Kind_eqb_eq (a b : Kind) : Kind_eqb a b = true <-> a = b.
Proof. destruct a, b; simpl; split; intro H; try reflexivity; discriminate H. Qed.

Lemma outOfOrder_recordAttempt (k : Kind) (this : Selector) :
  outOfOrder (recordAttempt k this)
  = (indexOf ORDER (Some (currentSelector this)) >? rank k).
Proof.
  unfold outOfOrder, recordAttempt; cbn [prevSelector currentSelector
    set_currentSelector set_prevSelector].
  now rewrite indexOf_kindName.
Qed.

(** Every method is the same four steps: [element] and [id] test their
    counter; the two fields are assigned; the order is tested;
    [pseudoElement] tests its counter; the fragment is appended. *)
Lemma invoke_steps (k : Kind) (value : string) (this : Selector) :
  invoke k value this =
    if guardedFirst k this then (Throw DuplicateFragmentError, this)
    else if indexOf ORDER (Some (currentSelector this)) >? rank k
      then (Throw SequenceOrderError, recordAttempt k this)
    else if guardedLast k this
      then (Throw DuplicateFragmentError, recordAttempt k this)
    else (Normal tt, commit k value (recordAttempt k this)).
Proof.
  rewrite <- outOfOrder_recordAttempt.
  destruct this as [s cur prev ec ic pc].
  destruct k;
    cbv [invoke guardedFirst guardedLast recordAttempt kindName commit
         SelectorMethods.element SelectorMethods.id SelectorMethods.class
         SelectorMethods.attr SelectorMethods.pseudoClass
         SelectorMethods.pseudoElement bind read assign throw_if throw ret
         set_selectors set_currentSelector set_prevSelector set_idCount
         set_pseudoElemCount selectors currentSelector prevSelector
         elementCount idCount pseudoElemCount];
    repeat match goal with
      | |- context [if ?c then _ else _] => destruct c eqn:?
      end; reflexivity.
Qed.

Lemma gtb_true (a b : Z) : b < a -> (a >? b) = true.
Proof. intro H. rewrite Z.gtb_ltb. now apply Z.ltb_lt. Qed.

Lemma gtb_false (a b : Z) : a <= b -> (a >? b) = false.
Proof. intro H. rewrite Z.gtb_ltb. now apply Z.ltb_ge. Qed.

Lemma Throw_inj {A : Type} (e1 e2 : Error) : @Throw A e1 = Throw e2 -> e1 = e2.
Proof. intro H. now injection H. Qed.

Lemma Some_inj {A : Type} (a b : A) : Some a = Some b -> a = b.
Proof. intro H. now injection H. Qed.

Lemma errors_differ : DuplicateFragmentError <> SequenceOrderError.
Proof.
  intro H. apply (f_equal message) in H. revert H.
  apply String.eqb_neq. reflexivity.
Qed.

(* ================================================================== *)
(** ** Rectangle *)
(* ================================================================== *)

(** C10: for every pair of numbers [width] and [height], the object
    [Rectangle(width, height)] has these two values as its [width] and
    [height] fields, and its [getArea()] returns [width * height]. *)
Theorem Rectangle_fields_and_area :
  forall width height : float,
    let r := RectangleTask.Rectangle width height in
    RectangleTask.width r = width /\
    RectangleTask.height r = height /\
    RectangleTask.getArea r = (width * height)%float.
Proof.
  intros width height r. repeat split.
Qed.

(** [new Rectangle(10, 20).getArea()] is [200] (line 21). *)
Example Rectangle_10_20 :
  RectangleTask.getArea (RectangleTask.Rectangle 10 20) = 200%float.
Proof. reflexivity. Qed.

(* ================================================================== *)
(** ** Entry points *)
(* ================================================================== *)

Lemma entry_fields (k : Kind) (value : string) :
  selectors (create k value) = render k value /\
  currentSelector (create k value) = kindName k /\
  elementCount (create k value) = (if Kind_eqb KElement k then 1 else 0) /\
  idCount (create k value) = (if Kind_eqb KId k then 1 else 0) /\
  pseudoElemCount (create k value) = (if Kind_eqb KPseudoElement k then 1 else 0).
Proof. destruct k; repeat split. Qed.

(** C9: each entry point of the facade returns a selector object seeded
    with one fragment of its kind: the text is the seed's rendering,
    [currentSelector] names the seed's kind, the counter of a capped seed is
    one and the other counters are zero; [stringify()] on it returns the
    seed's rendering and nothing else. *)
Theorem entry_point_seeded :
  forall (k : Kind) (value : string),
    let b := create k value in
    selectors b = render k value /\
    currentSelector b = kindName k /\
    prevSelector b = None /\
    elementCount b = (if Kind_eqb k KElement then 1 else 0) /\
    idCount b = (if Kind_eqb k KId then 1 else 0) /\
    pseudoElemCount b = (if Kind_eqb k KPseudoElement then 1 else 0) /\
    stringify b = render k value.
Proof.
  intros k value b. subst b. destruct k; repeat split.
Qed.

(* ================================================================== *)
(** ** Combine *)
(* ================================================================== *)

Lemma build_flat (e : SelectorExpr) : stringify (build e) = flat e.
Proof.
  induction e as [s | l IHl c r IHr]; simpl build.
  - reflexivity.
  - cbn [flat]. rewrite <- IHl, <- IHr. reflexivity.
Qed.

(** C8: for all operands exposing [stringify()] and every token string,
    [combine(left, token, right)] is an object whose [stringify()] is
    [left.stringify() + " " + token + " " + right.stringify()]; nested to
    any depth, the text has the operands in order and every combinator
    between single spaces. *)
Theorem combine_stringify :
  (forall (A B : Type) (SA : Stringifiable A) (SB : Stringifiable B)
          (left : A) (token : string) (right : B),
      stringify (cssSelectorBuilder.combine left token right)
      = stringify left ++ " " ++ token ++ " " ++ stringify right) /\
  (forall e : SelectorExpr, stringify (build e) = flat e).
Proof.
  split.
  - intros. reflexivity.
  - exact build_flat.
Qed.

(** [combine(element('div').id('main'), '+', element('table').id('data'))] *)
Example combine_div_table :
  stringify
    (cssSelectorBuilder.combine
       (after KId "main" (cssSelectorBuilder.element "div")) "+"
       (after KId "data" (cssSelectorBuilder.element "table")))
  = "div#main + table#data".
Proof. reflexivity. Qed.

(** The nested example of lines 103-116; the descendant combinator is
    itself a space, hence the three spaces. *)
Example combine_nested :
  let div := attempts [(KId, "main"); (KClass, "container"); (KClass, "draggable")]
               (cssSelectorBuilder.element "div") in
  let table := after KId "data" (cssSelectorBuilder.element "table") in
  let tr := after KPseudoClass "nth-of-type(even)" (cssSelectorBuilder.element "tr") in
  let td := after KPseudoClass "nth-of-type(even)" (cssSelectorBuilder.element "td") in
  stringify
    (cssSelectorBuilder.combine div "+"
       (cssSelectorBuilder.combine table "~"
          (cssSelectorBuilder.combine tr " " td)))
  = "div#main.container.draggable + table#data ~ tr:nth-of-type(even)   td:nth-of-type(even)".
Proof. reflexivity. Qed.

(* ================================================================== *)
(** ** The two tests of a method *)
(* ================================================================== *)

Lemma order_test_pseudoElement (this : Selector) :
  (indexOf ORDER (Some (currentSelector this)) >? rank KPseudoElement) = false.
Proof.
  pose proof (indexOf_ORDER_le (Some (currentSelector this))).
  simpl rank. apply gtb_false. lia.
Qed.

(** A positive counter of a capped kind ends the call by the
    occurrence error, whatever the order. *)
Lemma counter_positive_throws (k : Kind) (value : string) (this : Selector) (c : Z) :
  counter k this = Some c -> 0 < c ->
  fst (invoke k value this) = Throw DuplicateFragmentError.
Proof.
  intros Hc Hpos. rewrite invoke_steps.
  destruct k; simpl in Hc; try discriminate Hc; injection Hc as Hc; subst c;
    cbn [guardedFirst guardedLast].
  - now rewrite (gtb_true _ _ Hpos).
  - now rewrite (gtb_true _ _ Hpos).
  - rewrite order_test_pseudoElement.
    now rewrite (gtb_true _ _ Hpos).
Qed.

(** An order violation that the first guard does not pre-empt ends the
    call by the order error, after the two assignments. *)
Lemma order_violation_throws (k : Kind) (value : string) (this : Selector) :
  guardedFirst k this = false ->
  rank k < indexOf ORDER (Some (currentSelector this)) ->
  invoke k value this = (Throw SequenceOrderError, recordAttempt k this).
Proof.
  intros Hg Hlt. rewrite invoke_steps, Hg.
  now rewrite (gtb_true _ _ Hlt).
Qed.

Lemma gtb_true_inv (a b : Z) : (a >? b) = true -> b < a.
Proof. rewrite Z.gtb_ltb. apply Z.ltb_lt. Qed.

(** The only two ways a call ends by a throw: the occurrence error on a
    positive counter, the order error on an order violation. *)
Lemma thrown_error_cases (k : Kind) (value : string) (this this' : Selector) (e : Error) :
  invoke k value this = (Throw e, this') ->
  (e = DuplicateFragmentError /\ exists c, counter k this = Some c /\ 0 < c) \/
  (e = SequenceOrderError /\ guardedFirst k this = false /\
   rank k < indexOf ORDER (Some (currentSelector this))).
Proof.
  rewrite invoke_steps.
  destruct (guardedFirst k this) eqn:Hf;
    [|destruct (indexOf ORDER (Some (currentSelector this)) >? rank k) eqn:Ho;
      [|destruct (guardedLast k this) eqn:Hl]];
    intro H; inversion H; subst.
  - left. split; [reflexivity|].
    destruct k; cbn [guardedFirst] in Hf; try discriminate Hf;
      eexists; (split; [reflexivity | exact (gtb_true_inv _ _ Hf)]).
  - right. repeat split. exact (gtb_true_inv _ _ Ho).
  - left. split; [reflexivity|].
    destruct k; cbn [guardedLast] in Hl; try discriminate Hl.
    eexists; (split; [reflexivity | exact (gtb_true_inv _ _ Hl)]).
Qed.

(* ================================================================== *)
(** ** The messages *)
(* ================================================================== *)

(** The occurrence error of [element('a').element('b')] does not carry
    the text with "than" and a final full stop. *)
Lemma duplicate_message_differs :
  fst (invoke KElement "b" (create KElement "a")) = Throw DuplicateFragmentError /\
  thrownMessage (invoke KElement "b" (create KElement "a"))
  <> Some "Element, id and pseudo-element should not occur more than one time inside the selector.".
Proof.
  split; [reflexivity|].
  intro H. apply (Some_inj (message _)) in H. revert H.
  apply String.eqb_neq. reflexivity.
Qed.

(** C6, amended: every error that [element], [id] or [pseudoElement]
    raises on a positive counter carries exactly the message "Element, id
    and pseudo-element should not occur more then one time inside the
    selector" ("then", and no final full stop). *)
Theorem duplicate_message :
  forall (k : Kind) (value : string) (this : Selector) (c : Z),
    counter k this = Some c -> 0 < c ->
    thrownMessage (invoke k value this)
    = Some "Element, id and pseudo-element should not occur more then one time inside the selector".
Proof.
  intros k value this c Hc Hpos. unfold thrownMessage.
  now rewrite (counter_positive_throws k value this c Hc Hpos).
Qed.

(** [id('x').id('y')] *)
Lemma duplicate_message_witness :
  counter KId (create KId "x") = Some 1 /\ 0 < 1 /\
  thrownMessage (invoke KId "y" (create KId "x"))
  = Some "Element, id and pseudo-element should not occur more then one time inside the selector".
Proof.
  split; [reflexivity|]. split; [lia|].
  apply (duplicate_message KId "y" (create KId "x") 1); [reflexivity | lia].
Defined.

(** The order error of [class('a').element('x')] does not carry the text
    with a final full stop. *)
Lemma order_message_differs :
  fst (invoke KElement "x" (create KClass "a")) = Throw SequenceOrderError /\
  thrownMessage (invoke KElement "x" (create KClass "a"))
  <> Some "Selector parts should be arranged in the following order: element, id, class, attribute, pseudo-class, pseudo-element.".
Proof.
  split; [reflexivity|].
  intro H. apply (Some_inj (message _)) in H. revert H.
  apply String.eqb_neq. reflexivity.
Qed.

(** C7, amended: every error raised by the order test carries exactly
    the message "Selector parts should be arranged in the following order:
    element, id, class, attribute, pseudo-class, pseudo-element" (no final
    full stop). *)
Theorem order_message :
  forall (k : Kind) (value : string) (this : Selector),
    guardedFirst k this = false ->
    rank k < indexOf ORDER (Some (currentSelector this)) ->
    thrownMessage (invoke k value this)
    = Some "Selector parts should be arranged in the following order: element, id, class, attribute, pseudo-class, pseudo-element".
Proof.
  intros k value this Hg Hlt. unfold thrownMessage.
  now rewrite (order_violation_throws k value this Hg Hlt).
Qed.

(** [attr('href').class('c')] *)
Lemma order_message_witness :
  guardedFirst KClass (create KAttr "href") = false /\
  rank KClass < indexOf ORDER (Some (currentSelector (create KAttr "href"))) /\
  thrownMessage (invoke KClass "c" (create KAttr "href"))
  = Some "Selector parts should be arranged in the following order: element, id, class, attribute, pseudo-class, pseudo-element".
Proof.
  split; [reflexivity|]. split; [reflexivity|].
  apply (order_message KClass "c" (create KAttr "href")); reflexivity.
Defined.

(* ================================================================== *)
(** ** The receiver after a failed call *)
(* ================================================================== *)

(** The receiver a failed call leaves behind. *)
Lemma invoke_throw_state (k : Kind) (value : string) (this this' : Selector) (e : Error) :
  invoke k value this = (Throw e, this') ->
  this' = if guardedFirst k this then this else recordAttempt k this.
Proof.
  rewrite invoke_steps.
  destruct (guardedFirst k this);
    [|destruct (indexOf ORDER (Some (currentSelector this)) >? rank k);
      [|destruct (guardedLast k this)]];
    intro H; inversion H; reflexivity.
Qed.

(** [class('a').element('x')] fails and leaves [currentSelector] changed,
    so that the same call made again succeeds. *)
Lemma failed_call_changes_state :
  let this := create KClass "a" in
  fst (invoke KElement "x" this) = Throw SequenceOrderError /\
  snd (invoke KElement "x" this) <> this /\
  currentSelector this = "class" /\
  currentSelector (snd (invoke KElement "x" this)) = "element" /\
  invoke KElement "x" (snd (invoke KElement "x" this))
  = (Normal tt, commit KElement "x" (recordAttempt KElement (recordAttempt KElement this))).
Proof.
  intro this. repeat split.
  intro H. apply (f_equal currentSelector) in H. revert H.
  apply String.eqb_neq. reflexivity.
Qed.

(** C5, amended: when a call raises an error, the text and the three
    counters of the receiver are what they were before the call; if the
    error came from the counter test of [element] or [id], the whole
    receiver is unchanged; otherwise [prevSelector] holds the former
    [currentSelector] and [currentSelector] names the kind of the failed
    call. *)
Theorem failed_call_state :
  forall (k : Kind) (value : string) (this this' : Selector) (e : Error),
    invoke k value this = (Throw e, this') ->
    selectors this' = selectors this /\
    elementCount this' = elementCount this /\
    idCount this' = idCount this /\
    pseudoElemCount this' = pseudoElemCount this /\
    (guardedFirst k this = true -> this' = this) /\
    (guardedFirst k this = false ->
       prevSelector this' = Some (currentSelector this) /\
       currentSelector this' = kindName k).
Proof.
  intros k value this this' e H.
  apply invoke_throw_state in H.
  destruct (guardedFirst k this); subst this'; repeat split;
    solve [reflexivity | congruence].
Qed.

(** [attr('href').id('main')] *)
Lemma failed_call_state_witness :
  let this := create KAttr "href" in
  let this' := recordAttempt KId this in
  invoke KId "main" this = (Throw SequenceOrderError, this') /\
  selectors this' = selectors this /\
  elementCount this' = elementCount this /\
  idCount this' = idCount this /\
  pseudoElemCount this' = pseudoElemCount this /\
  (guardedFirst KId this = true -> this' = this) /\
  (guardedFirst KId this = false ->
     prevSelector this' = Some (currentSelector this) /\
     currentSelector this' = kindName KId).
Proof.
  intros this this'. split; [reflexivity|].
  apply (failed_call_state KId "main" this this' SequenceOrderError).
  reflexivity.
Defined.

(* ================================================================== *)
(** ** Calls that succeed *)
(* ================================================================== *)

Lemma invoke_normal (k : Kind) (value : string) (this : Selector) :
  guardedFirst k this = false ->
  indexOf ORDER (Some (currentSelector this)) <= rank k ->
  guardedLast k this = false ->
  invoke k value this = (Normal tt, commit k value (recordAttempt k this)).
Proof.
  intros Hf Hle Hl.
  now rewrite invoke_steps, Hf, (gtb_false _ _ Hle), Hl.
Qed.

(** A call that returned normally is [commit] after [recordAttempt]. *)
Lemma invoke_normal_inv (k : Kind) (value : string) (this this' : Selector) :
  invoke k value this = (Normal tt, this') ->
  this' = commit k value (recordAttempt k this).
Proof.
  rewrite invoke_steps.
  destruct (guardedFirst k this);
    [|destruct (indexOf ORDER (Some (currentSelector this)) >? rank k);
      [|destruct (guardedLast k this)]];
    intro H; inversion H; reflexivity.
Qed.

Lemma commit_fields (k : Kind) (value : string) (this : Selector) :
  let this' := commit k value (recordAttempt k this) in
  currentSelector this' = kindName k /\
  selectors this' = selectors this ++ render k value /\
  elementCount this' = elementCount this /\
  idCount this' = idCount this + (if Kind_eqb KId k then 1 else 0) /\
  pseudoElemCount this'
  = pseudoElemCount this + (if Kind_eqb KPseudoElement k then 1 else 0).
Proof.
  destruct k; cbn; repeat split; lia.
Qed.

Lemma occurrences_cons (k k' : Kind) (ks : list Kind) :
  occurrences k (k' :: ks)
  = (if Kind_eqb k k' then 1 else 0) + occurrences k ks.
Proof.
  unfold occurrences. simpl List.filter.
  destruct (Kind_eqb k k'); simpl List.length; lia.
Qed.

Lemma occurrences_nonneg (k : Kind) (ks : list Kind) : 0 <= occurrences k ks.
Proof. unfold occurrences. lia. Qed.

(** The chain from any receiver whose counters leave room for the capped
    kinds still to come. *)
Lemma chain_canonical (calls : list Call) :
  forall (this : Selector) (l : Kind),
    currentSelector this = kindName l ->
    nondecreasing l (List.map fst calls) = true ->
    elementCount this + occurrences KElement (List.map fst calls) <= 1 ->
    idCount this + occurrences KId (List.map fst calls) <= 1 ->
    pseudoElemCount this + occurrences KPseudoElement (List.map fst calls) <= 1 ->
    exists this',
      chain calls this = (Normal tt, this') /\
      selectors this' = selectors this ++ renderAll calls.
Proof.
  induction calls as [|[k v] rest IH]; intros this l Hcur Hnd He Hi Hp.
  - exists this. split; [reflexivity|].
    simpl renderAll. now rewrite append_empty_r.
  - simpl List.map in *. simpl nondecreasing in Hnd.
    apply andb_prop in Hnd. destruct Hnd as [Hle Hnd].
    apply Z.leb_le in Hle.
    rewrite occurrences_cons in He, Hi, Hp.
    pose proof (occurrences_nonneg KElement (List.map fst rest)) as He0.
    pose proof (occurrences_nonneg KId (List.map fst rest)) as Hi0.
    pose proof (occurrences_nonneg KPseudoElement (List.map fst rest)) as Hp0.
    assert (Hstep : invoke k v this
                    = (Normal tt, commit k v (recordAttempt k this))).
    { apply invoke_normal.
      - destruct k; cbn [guardedFirst Kind_eqb] in *; try reflexivity;
          apply gtb_false; lia.
      - rewrite Hcur, indexOf_kindName. exact Hle.
      - destruct k; cbn [guardedLast Kind_eqb] in *; try reflexivity;
          apply gtb_false; lia. }
    destruct (commit_fields k v this) as (Fcur & Fsel & Fe & Fi & Fp).
    destruct (IH (commit k v (recordAttempt k this)) k Fcur Hnd)
      as (this' & Hchain & Hsel).
    + rewrite Fe. destruct k; cbn [Kind_eqb] in *; lia.
    + rewrite Fi. destruct k; cbn [Kind_eqb] in *; lia.
    + rewrite Fp. destruct k; cbn [Kind_eqb] in *; lia.
    + exists this'. split.
      * simpl chain. unfold bind. rewrite Hstep. exact Hchain.
      * rewrite Hsel, Fsel. simpl renderAll. apply append_assoc.
Qed.

(** C1: for every seed and every sequence of calls whose kinds, the seed's
    first, follow the canonical order without decreasing and hold element,
    id and pseudoElement at most once each, every call of the chain returns
    normally and [stringify()] is the concatenation of the renderings of the
    seed and of the calls, in call order. *)
Theorem canonical_chain_renders :
  forall (k0 : Kind) (v0 : string) (calls : list Call),
    canonical k0 (List.map fst calls) = true ->
    exists this,
      chain calls (create k0 v0) = (Normal tt, this) /\
      stringify this = renderAll ((k0, v0) :: calls).
Proof.
  intros k0 v0 calls Hcan. unfold canonical in Hcan.
  repeat (apply andb_prop in Hcan; destruct Hcan as [Hcan ?]).
  repeat match goal with H : (_ <=? _) = true |- _ => apply Z.leb_le in H end.
  rewrite occurrences_cons in *.
  destruct (entry_fields k0 v0) as (Fsel & Fcur & Fe & Fi & Fp).
  destruct (chain_canonical calls (create k0 v0) k0 Fcur Hcan)
    as (this & Hchain & Hsel); try (rewrite ?Fe, ?Fi, ?Fp; assumption).
  exists this. split; [exact Hchain|].
  change (stringify this) with (selectors this).
  now rewrite Hsel, Fsel.
Qed.

(** [id('main').class('container').class('editable')] *)
Lemma canonical_chain_renders_witness :
  canonical KId [KClass; KClass] = true /\
  exists this,
    chain [(KClass, "container"); (KClass, "editable")] (create KId "main")
    = (Normal tt, this) /\
    stringify this = "#main.container.editable".
Proof.
  split; [reflexivity|].
  apply (canonical_chain_renders KId "main"
           [(KClass, "container"); (KClass, "editable")]).
  reflexivity.
Defined.

(* ================================================================== *)
(** ** The order test and the fragment appended last *)
(* ================================================================== *)

Lemma last_cons_default {A : Type} (l : list A) :
  forall a d : A, List.last (a :: l) d = List.last l a.
Proof.
  induction l as [|b l IH]; intros a d; [reflexivity|].
  change (List.last (a :: b :: l) d) with (List.last (b :: l) d).
  now rewrite (IH b d), (IH b a).
Qed.

Lemma lastKind_cons (k0 k : Kind) (v : string) (rest : list Call) :
  lastKind k0 ((k, v) :: rest) = lastKind k rest.
Proof. unfold lastKind. simpl List.map. apply last_cons_default. Qed.

(** As long as every call returned normally, [currentSelector] names the
    kind of the fragment appended last. *)
Lemma chain_currentSelector (calls : list Call) :
  forall (this this' : Selector) (k0 : Kind),
    currentSelector this = kindName k0 ->
    chain calls this = (Normal tt, this') ->
    currentSelector this' = kindName (lastKind k0 calls).
Proof.
  induction calls as [|[k v] rest IH]; intros this this' k0 Hcur Hchain.
  - simpl in Hchain. injection Hchain as <-. exact Hcur.
  - simpl chain in Hchain. unfold bind in Hchain.
    destruct (invoke k v this) as [[[]|e] this1] eqn:Hstep; [|discriminate Hchain].
    apply invoke_normal_inv in Hstep. subst this1.
    rewrite lastKind_cons.
    apply (IH _ _ k (proj1 (commit_fields k v this)) Hchain).
Qed.


(* ================================================================== *)
(** ** Repeated capped kinds *)
(* ================================================================== *)

Lemma after_fields (k : Kind) (value : string) (this : Selector) :
  elementCount (after k value this) = elementCount this /\
  idCount this <= idCount (after k value this) /\
  pseudoElemCount this <= pseudoElemCount (after k value this) /\
  (fst (invoke k value this) = Normal tt ->
   (k = KId -> 0 < idCount this + 1 -> 0 < idCount (after k value this)) /\
   (k = KPseudoElement -> 0 < pseudoElemCount this + 1 ->
      0 < pseudoElemCount (after k value this))).
Proof.
  unfold after. rewrite invoke_steps.
  destruct (guardedFirst k this);
    [|destruct (indexOf ORDER (Some (currentSelector this)) >? rank k);
      [|destruct (guardedLast k this)]];
    cbn [fst snd]; try (repeat split; solve [reflexivity | lia | discriminate]).
  destruct (commit_fields k value this) as (_ & _ & Fe & Fi & Fp).
  rewrite Fe, Fi, Fp.
  destruct k; cbn [Kind_eqb]; repeat split; intros; lia || discriminate.
Qed.

(** [element] never changes [elementCount]: a caller that catches its
    exceptions finds the counter the constructor function set. *)
Lemma attempts_elementCount (calls : list Call) :
  forall this, elementCount (attempts calls this) = elementCount this.
Proof.
  induction calls as [|[k v] rest IH]; intro this; [reflexivity|].
  simpl attempts. rewrite IH. apply after_fields.
Qed.

(** An [id] fragment, from the seed or appended by a call, leaves
    [idCount] positive, and a further [id] is rejected. *)
Lemma id_twice_rejected (calls : list Call) :
  forall (this : Selector) (value : string),
    0 <= idCount this ->
    (0 < idCount this \/ In KId (List.map fst (appended calls this))) ->
    fst (invoke KId value (attempts calls this)) = Throw DuplicateFragmentError.
Proof.
  induction calls as [|[k v] rest IH]; intros this value H0 H.
  - simpl in *. destruct H as [H | []].
    now apply (counter_positive_throws KId value this (idCount this)).
  - simpl attempts. simpl appended in H.
    destruct (after_fields k v this) as (_ & Hmono & _ & Hok).
    apply IH; [lia|].
    destruct H as [H | H]; [left; lia|].
    destruct (fst (invoke k v this)) as [[]|e]; [|now right].
    simpl in H. destruct H as [H | H]; [|now right].
    left. apply Hok; [reflexivity | exact H | lia].
Qed.

(** The same for [pseudoElement]. *)
Lemma pseudoElement_twice_rejected (calls : list Call) :
  forall (this : Selector) (value : string),
    0 <= pseudoElemCount this ->
    (0 < pseudoElemCount this
     \/ In KPseudoElement (List.map fst (appended calls this))) ->
    fst (invoke KPseudoElement value (attempts calls this))
    = Throw DuplicateFragmentError.
Proof.
  induction calls as [|[k v] rest IH]; intros this value H0 H.
  - simpl in *. destruct H as [H | []].
    now apply (counter_positive_throws KPseudoElement value this
                 (pseudoElemCount this)).
  - simpl attempts. simpl appended in H.
    destruct (after_fields k v this) as (_ & _ & Hmono & Hok).
    apply IH; [lia|].
    destruct H as [H | H]; [left; lia|].
    destruct (fst (invoke k v this)) as [[]|e]; [|now right].
    simpl in H. destruct H as [H | H]; [|now right].
    left. apply Hok; [reflexivity | exact H | lia].
Qed.

(** C3, at [id('a')] with the calls [element('x')], [element('y')],
    [element('z')], the caller catching the exception of the first: the
    first is rejected by the order test, the second appends an element
    fragment, and the third, a second element on an object that carries
    one, returns normally and appends as well; [elementCount] is zero
    throughout. *)
Theorem element_twice_accepted :
  let b0 := cssSelectorBuilder.id "a" in
  let b1 := after KElement "x" b0 in
  let b2 := after KElement "y" b1 in
  fst (invoke KElement "x" b0) = Throw SequenceOrderError /\
  fst (invoke KElement "y" b1) = Normal tt /\
  stringify b2 = "#ay" /\
  appended [(KElement, "x"); (KElement, "y")] b0 = [(KElement, "y")] /\
  elementCount b2 = 0 /\
  fst (invoke KElement "z" b2) = Normal tt /\
  stringify (after KElement "z" b2) = "#ayz".
Proof.
  intros b0 b1 b2. repeat split.
Qed.

(* ================================================================== *)
(** ** Every exception, and when *)
(* ================================================================== *)

Lemma invoke_normal_conds (k : Kind) (value : string) (this this' : Selector) :
  invoke k value this = (Normal tt, this') ->
  guardedFirst k this = false /\
  indexOf ORDER (Some (currentSelector this)) <= rank k /\
  guardedLast k this = false.
Proof.
  rewrite invoke_steps.
  destruct (guardedFirst k this);
    [|destruct (indexOf ORDER (Some (currentSelector this)) >? rank k) eqn:Ho;
      [|destruct (guardedLast k this)]];
    intro H; inversion H.
  repeat split. rewrite Z.gtb_ltb in Ho. apply Z.ltb_ge in Ho. exact Ho.
Qed.

Lemma throws_exactly_aux (k : Kind) (value : string) (this : Selector) :
  (forall e, fst (invoke k value this) = Throw e ->
             e = DuplicateFragmentError \/ e = SequenceOrderError) /\
  (fst (invoke k value this) = Throw DuplicateFragmentError
   <-> exists c, counter k this = Some c /\ 0 < c) /\
  (fst (invoke k value this) = Throw SequenceOrderError
   <-> guardedFirst k this = false /\
       rank k < indexOf ORDER (Some (currentSelector this))).
Proof.
  assert (Hcases : forall e, fst (invoke k value this) = Throw e ->
            (e = DuplicateFragmentError /\ exists c, counter k this = Some c /\ 0 < c) \/
            (e = SequenceOrderError /\ guardedFirst k this = false /\
             rank k < indexOf ORDER (Some (currentSelector this)))).
  { intros e He. destruct (invoke k value this) as [c this'] eqn:H.
    simpl in He. subst c. exact (thrown_error_cases k value this this' e H). }
  split; [|split].
  - intros e He. destruct (Hcases e He) as [[-> _] | [-> _]]; [now left | now right].
  - split.
    + intro H. destruct (Hcases _ H) as [[_ Hc] | [E _]]; [exact Hc|].
      destruct (errors_differ E).
    + intros (c & Hc & Hpos). exact (counter_positive_throws k value this c Hc Hpos).
  - split.
    + intro H. destruct (Hcases _ H) as [[E _] | [_ Hc]]; [|exact Hc].
      destruct (errors_differ (eq_sym E)).
    + intros [Hg Hlt]. now rewrite (order_violation_throws k value this Hg Hlt).
Qed.

(** The methods raise nothing but the two errors of lines 164 and 169, and
    the state before the call decides which: the occurrence error exactly
    when the counter of the kind is positive, the order error exactly when
    no counter test of [element] or [id] pre-empts it and [currentSelector]
    has an index in [ORDER] above that of the kind. *)
Theorem throws_exactly :
  forall (k : Kind) (value : string) (this : Selector),
    (forall e, fst (invoke k value this) = Throw e ->
               e = DuplicateFragmentError \/ e = SequenceOrderError) /\
    (fst (invoke k value this) = Throw DuplicateFragmentError
     <-> exists c, counter k this = Some c /\ 0 < c) /\
    (fst (invoke k value this) = Throw SequenceOrderError
     <-> guardedFirst k this = false /\
         rank k < indexOf ORDER (Some (currentSelector this))).
Proof.
  exact throws_exactly_aux.
Qed.

(** [pseudoElement] is never rejected by the order test: it returns
    normally exactly when no pseudo-element was counted before. *)
Theorem pseudoElement_normal_iff :
  forall (value : string) (this : Selector),
    fst (invoke KPseudoElement value this) <> Throw SequenceOrderError /\
    (fst (invoke KPseudoElement value this) = Normal tt
     <-> pseudoElemCount this <= 0).
Proof.
  intros value this. rewrite invoke_steps.
  cbn [guardedFirst guardedLast]. rewrite order_test_pseudoElement.
  destruct (pseudoElemCount this >? 0) eqn:Hc; cbn [fst].
  - apply gtb_true_inv in Hc. split.
    + intro E. exact (errors_differ (Throw_inj _ _ E)).
    + split; [intro H; discriminate H | lia].
  - rewrite Z.gtb_ltb in Hc. apply Z.ltb_ge in Hc. split.
    + intro H; discriminate H.
    + split; [intros _; exact Hc | reflexivity].
Qed.

(* ================================================================== *)
(** ** A call rejected by the order test, made again *)
(* ================================================================== *)

(** The order test does not hold twice: the call of a kind that the order
    test has just rejected, made again on the same object, returns normally
    and appends its fragment, out of the canonical order. *)
Theorem order_rejection_retry :
  forall (k : Kind) (value value' : string) (this : Selector),
    fst (invoke k value this) = Throw SequenceOrderError ->
    fst (invoke k value' (after k value this)) = Normal tt /\
    selectors (after k value' (after k value this))
    = selectors this ++ render k value'.
Proof.
  intros k value value' this H.
  apply (proj2 (proj2 (throws_exactly_aux k value this))) in H.
  destruct H as [Hg Hlt].
  assert (Hafter : after k value this = recordAttempt k this).
  { unfold after. now rewrite (order_violation_throws k value this Hg Hlt). }
  rewrite Hafter. unfold after.
  rewrite (invoke_normal k value' (recordAttempt k this)).
  - split; [reflexivity|]. cbn [snd].
    exact (proj1 (proj2 (commit_fields k value' (recordAttempt k this)))).
  - destruct k; exact Hg.
  - change (currentSelector (recordAttempt k this)) with (kindName k).
    rewrite indexOf_kindName. lia.
  - destruct k; try reflexivity.
    pose proof (indexOf_ORDER_le (Some (currentSelector this))).
    simpl rank in Hlt. lia.
Qed.

(** [attr('href').class('c')] is rejected; [.class('d')] then appends. *)
Lemma order_rejection_retry_witness :
  let this := create KAttr "href" in
  fst (invoke KClass "c" this) = Throw SequenceOrderError /\
  fst (invoke KClass "d" (after KClass "c" this)) = Normal tt /\
  selectors (after KClass "d" (after KClass "c" this)) = "[href].d".
Proof.
  intro this. split; [reflexivity|].
  apply (order_rejection_retry KClass "c" "d" this). reflexivity.
Defined.

(* ================================================================== *)
(** ** Any history of calls, exceptions caught *)
(* ================================================================== *)

(** One call, seen from the caller: what it did to the fields. *)
Lemma after_cases (k : Kind) (value : string) (this : Selector) :
  (fst (invoke k value this) = Normal tt /\
   after k value this = commit k value (recordAttempt k this) /\
   guardedFirst k this = false /\ guardedLast k this = false /\
   indexOf ORDER (Some (currentSelector this)) <= rank k) \/
  ((exists e, fst (invoke k value this) = Throw e) /\
   (after k value this = this \/ after k value this = recordAttempt k this)).
Proof.
  unfold after. rewrite invoke_steps.
  destruct (guardedFirst k this);
    [|destruct (indexOf ORDER (Some (currentSelector this)) >? rank k) eqn:Ho;
      [|destruct (guardedLast k this)]]; cbn [fst snd].
  - right. split; [eexists; reflexivity | now left].
  - right. split; [eexists; reflexivity | now right].
  - right. split; [eexists; reflexivity | now right].
  - left. repeat split. rewrite Z.gtb_ltb in Ho. now apply Z.ltb_ge in Ho.
Qed.

Lemma attempts_selectors (calls : list Call) :
  forall this,
    selectors (attempts calls this)
    = selectors this ++ renderAll (appended calls this).
Proof.
  induction calls as [|[k v] rest IH]; intro this.
  - simpl. now rewrite append_empty_r.
  - simpl attempts. simpl appended. rewrite IH.
    destruct (after_cases k v this) as [(Hn & Ha & _) | ((e & He) & Ha)].
    + rewrite Hn, Ha. cbn [renderAll].
      rewrite (proj1 (proj2 (commit_fields k v this))).
      apply append_assoc.
    + rewrite He. destruct Ha as [-> | ->]; reflexivity.
Qed.

(** Whatever calls are made on a selector object, and whichever of them
    throw, [stringify()] is at every point the rendering of the seed
    followed by the renderings of exactly the calls that returned
    normally, in call order: a rejected call leaves no trace in the text. *)
Theorem stringify_history :
  forall (k0 : Kind) (v0 : string) (calls : list Call),
    stringify (attempts calls (create k0 v0))
    = renderAll ((k0, v0) :: appended calls (create k0 v0)).
Proof.
  intros k0 v0 calls.
  change (stringify (attempts calls (create k0 v0)))
    with (selectors (attempts calls (create k0 v0))).
  rewrite attempts_selectors.
  now rewrite (proj1 (entry_fields k0 v0)).
Qed.

Lemma attempts_counters (calls : list Call) :
  forall this,
    (idCount this <= 1 ->
     idCount (attempts calls this)
     = idCount this + occurrences KId (List.map fst (appended calls this))
     /\ idCount (attempts calls this) <= 1) /\
    (pseudoElemCount this <= 1 ->
     pseudoElemCount (attempts calls this)
     = pseudoElemCount this
       + occurrences KPseudoElement (List.map fst (appended calls this))
     /\ pseudoElemCount (attempts calls this) <= 1).
Proof.
  induction calls as [|[k v] rest IH]; intro this.
  - simpl attempts. simpl appended. unfold occurrences. simpl. split; intro; lia.
  - simpl attempts. simpl appended.
    destruct (IH (after k v this)) as [IHi IHp].
    destruct (after_cases k v this)
      as [(Hn & Ha & Hf & Hl & _) | ((e & He) & Ha)].
    + rewrite Hn. simpl List.map. rewrite !occurrences_cons.
      destruct (commit_fields k v this) as (_ & _ & _ & Fi & Fp).
      rewrite <- Ha in Fi, Fp.
      assert (Hi : idCount this <= 1 -> idCount (after k v this) <= 1).
      { rewrite Fi. destruct k; cbn [Kind_eqb guardedFirst] in *; lia. }
      assert (Hp : pseudoElemCount this <= 1 ->
                   pseudoElemCount (after k v this) <= 1).
      { rewrite Fp. destruct k; cbn [Kind_eqb guardedLast] in *; lia. }
      split; intro H.
      * destruct (IHi (Hi H)) as [E B]. split; [rewrite E, Fi; lia | exact B].
      * destruct (IHp (Hp H)) as [E B]. split; [rewrite E, Fp; lia | exact B].
    + rewrite He.
      assert (Hi : idCount (after k v this) = idCount this)
        by (destruct Ha as [-> | ->]; reflexivity).
      assert (Hp : pseudoElemCount (after k v this) = pseudoElemCount this)
        by (destruct Ha as [-> | ->]; reflexivity).
      rewrite Hi in IHi. rewrite Hp in IHp. split; assumption.
Qed.

(** Whatever calls are made, and whichever of them throw, the selector
    never holds more than one id fragment nor more than one pseudo-element
    fragment, the seed counted; [idCount] and [pseudoElemCount] are at every
    point the numbers of these fragments. *)
Theorem id_and_pseudoElement_at_most_once :
  forall (k0 : Kind) (v0 : string) (calls : list Call),
    let fragments := k0 :: List.map fst (appended calls (create k0 v0)) in
    let this := attempts calls (create k0 v0) in
    occurrences KId fragments = idCount this /\
    occurrences KId fragments <= 1 /\
    occurrences KPseudoElement fragments = pseudoElemCount this /\
    occurrences KPseudoElement fragments <= 1.
Proof.
  intros k0 v0 calls fragments this. subst fragments this.
  destruct (attempts_counters calls (create k0 v0)) as [Hi Hp].
  destruct (entry_fields k0 v0) as (_ & _ & _ & Fi & Fp).
  rewrite !occurrences_cons.
  destruct Hi as [Ei Bi]; [rewrite Fi; destruct (Kind_eqb KId k0); lia|].
  destruct Hp as [Ep Bp];
    [rewrite Fp; destruct (Kind_eqb KPseudoElement k0); lia|].
  rewrite Fi in Ei. rewrite Fp in Ep. rewrite Ei in Bi. rewrite Ep in Bp.
  repeat split; lia.
Qed.

(** [element] is rejected as a repetition on the objects made by the
    [element] entry point and on no others, whatever calls were made
    before: no method assigns [elementCount]. *)
Theorem element_repetition_iff_seeded :
  forall (k0 : Kind) (v0 : string) (calls : list Call) (value : string),
    fst (invoke KElement value (attempts calls (create k0 v0)))
    = Throw DuplicateFragmentError
    <-> k0 = KElement.
Proof.
  intros k0 v0 calls value.
  rewrite (proj1 (proj2 (throws_exactly_aux KElement value _))).
  cbn [counter]. rewrite attempts_elementCount.
  rewrite (proj1 (proj2 (proj2 (entry_fields k0 v0)))).
  split.
  - intros (c & Hc & Hpos). injection Hc as <-.
    destruct k0; cbn [Kind_eqb] in Hpos; try lia. reflexivity.
  - intros ->. exists 1. split; [reflexivity | lia].
Qed.

Lemma attempts_currentSelector (calls : list Call) :
  forall this,
    (exists k, currentSelector this = kindName k) ->
    exists k, currentSelector (attempts calls this) = kindName k.
Proof.
  induction calls as [|[k v] rest IH]; intros this H; [exact H|].
  simpl attempts. apply IH.
  destruct (after_cases k v this) as [(_ & Ha & _) | (_ & [Ha | Ha])];
    rewrite Ha.
  - exists k. exact (proj1 (commit_fields k v this)).
  - exact H.
  - now exists k.
Qed.

(** Whatever calls are made, [currentSelector] is one of the six names of
    [ORDER], so that the order test always compares two positions of the
    table and never the [-1] of a missing name. *)
Theorem currentSelector_in_ORDER :
  forall (k0 : Kind) (v0 : string) (calls : list Call),
    0 <= indexOf ORDER (Some (currentSelector (attempts calls (create k0 v0)))) <= 5.
Proof.
  intros k0 v0 calls.
  destruct (attempts_currentSelector calls (create k0 v0)) as [k Hk].
  - exists k0. exact (proj1 (proj2 (entry_fields k0 v0))).
  - rewrite Hk, indexOf_kindName. destruct k; simpl; lia.
Qed.

(* ================================================================== *)
(** ** Chains that return normally *)
(* ================================================================== *)

Lemma chain_cons_normal (k : Kind) (v : string) (rest : list Call)
    (this this' : Selector) :
  chain ((k, v) :: rest) this = (Normal tt, this') ->
  invoke k v this = (Normal tt, commit k v (recordAttempt k this)) /\
  chain rest (commit k v (recordAttempt k this)) = (Normal tt, this').
Proof.
  simpl chain. unfold bind.
  destruct (invoke k v this) as [[[]|e] this1] eqn:Hstep; [|discriminate].
  intro H. rewrite <- (invoke_normal_inv k v this this1 Hstep). now split.
Qed.

(** A chain that returned normally is a history without exceptions. *)
Lemma chain_normal_attempts (calls : list Call) :
  forall this this',
    chain calls this = (Normal tt, this') ->
    attempts calls this = this' /\ appended calls this = calls.
Proof.
  induction calls as [|[k v] rest IH]; intros this this' H.
  - simpl in H. injection H as <-. now split.
  - apply chain_cons_normal in H. destruct H as [Hstep Hrest].
    simpl attempts. simpl appended. unfold after. rewrite Hstep. cbn [fst snd].
    destruct (IH _ _ Hrest) as [-> ->]. now split.
Qed.

Lemma chain_normal_nondecreasing (calls : list Call) :
  forall (this this' : Selector) (l : Kind),
    currentSelector this = kindName l ->
    chain calls this = (Normal tt, this') ->
    nondecreasing l (List.map fst calls) = true.
Proof.
  induction calls as [|[k v] rest IH]; intros this this' l Hcur H; [reflexivity|].
  apply chain_cons_normal in H. destruct H as [Hstep Hrest].
  apply invoke_normal_conds in Hstep. destruct Hstep as (_ & Hle & _).
  rewrite Hcur, indexOf_kindName in Hle.
  simpl List.map. simpl nondecreasing. apply andb_true_intro. split.
  - now apply Z.leb_le.
  - exact (IH _ _ k (proj1 (commit_fields k v this)) Hrest).
Qed.

(** No chain that returns normally holds a call of [element]. *)
Lemma chain_normal_no_element (calls : list Call) :
  forall (this this' : Selector) (l : Kind),
    currentSelector this = kindName l ->
    0 < elementCount this \/ 0 < rank l ->
    chain calls this = (Normal tt, this') ->
    occurrences KElement (List.map fst calls) = 0.
Proof.
  induction calls as [|[k v] rest IH]; intros this this' l Hcur Hpos H;
    [reflexivity|].
  apply chain_cons_normal in H. destruct H as [Hstep Hrest].
  apply invoke_normal_conds in Hstep. destruct Hstep as (Hf & Hle & _).
  rewrite Hcur, indexOf_kindName in Hle.
  destruct (commit_fields k v this) as (Fcur & _ & Fe & _).
  simpl List.map. rewrite occurrences_cons.
  rewrite (IH _ _ k Fcur) with (2 := Hrest).
  - destruct k; cbn [Kind_eqb guardedFirst rank] in *; lia.
  - rewrite Fe. destruct Hpos as [Hpos | Hpos]; [now left | right; lia].
Qed.

(** A chain of calls on a fresh selector object, no exception caught,
    returns normally exactly when the kinds, the seed's first, follow the
    canonical order without decreasing and hold element, id and
    pseudoElement at most once each: every other chain throws. *)
Theorem chain_normal_iff_canonical :
  forall (k0 : Kind) (v0 : string) (calls : list Call),
    fst (chain calls (create k0 v0)) = Normal tt
    <-> canonical k0 (List.map fst calls) = true.
Proof.
  intros k0 v0 calls.
  destruct (entry_fields k0 v0) as (Fsel & Fcur & Fe & Fi & Fp).
  split.
  - intro H.
    destruct (chain calls (create k0 v0)) as [c this'] eqn:Hchain.
    simpl in H. subst c.
    pose proof (chain_normal_nondecreasing calls _ _ k0 Fcur Hchain) as Hnd.
    assert (He : occurrences KElement (List.map fst calls) = 0).
    { apply (chain_normal_no_element calls (create k0 v0) this' k0 Fcur);
        [|exact Hchain].
      rewrite Fe. destruct k0; cbn [Kind_eqb rank]; lia. }
    destruct (chain_normal_attempts calls _ _ Hchain) as [Hatt Happ].
    destruct (attempts_counters calls (create k0 v0)) as [Hi Hp].
    rewrite Happ, Hatt in Hi, Hp.
    unfold canonical. rewrite Hnd, !occurrences_cons, He. cbn [andb].
    repeat (apply andb_true_intro; split); apply Z.leb_le.
    + destruct (Kind_eqb KElement k0); lia.
    + destruct Hi as [E B]; [rewrite Fi; destruct (Kind_eqb KId k0); lia|].
      rewrite Fi in E. lia.
    + destruct Hp as [E B];
        [rewrite Fp; destruct (Kind_eqb KPseudoElement k0); lia|].
      rewrite Fp in E. lia.
  - intro Hcan. unfold canonical in Hcan.
    repeat (apply andb_prop in Hcan; destruct Hcan as [Hcan ?]).
    repeat match goal with H : (_ <=? _) = true |- _ => apply Z.leb_le in H end.
    rewrite occurrences_cons in *.
    destruct (chain_canonical calls (create k0 v0) k0 Fcur Hcan)
      as (this & Hchain & _); try (rewrite ?Fe, ?Fi, ?Fp; assumption).
    now rewrite Hchain.
Qed.

(* ================================================================== *)
(** ** Combine loses the grouping *)
(* ================================================================== *)

(** The text of a combination does not tell how its operands were
    grouped: [combine(combine(a, t1, b), t2, c)] and
    [combine(a, t1, combine(b, t2, c))] have the same [stringify()]. *)
Theorem combine_regroup :
  forall (A B C : Type) (SA : Stringifiable A) (SB : Stringifiable B)
         (SC : Stringifiable C) (a : A) (t1 : string) (b : B) (t2 : string)
         (c : C),
    stringify (cssSelectorBuilder.combine
                 (cssSelectorBuilder.combine a t1 b) t2 c)
    = stringify (cssSelectorBuilder.combine
                   a t1 (cssSelectorBuilder.combine b t2 c)).
Proof.
  intros.
  change (((stringify a ++ " " ++ t1 ++ " " ++ stringify b)
           ++ " " ++ t2 ++ " " ++ stringify c)
          = stringify a ++ " " ++ t1 ++ " "
            ++ (stringify b ++ " " ++ t2 ++ " " ++ stringify c)).
  rewrite !append_assoc. reflexivity.
Qed.

(* ================================================================== *)
(** ** The order test after any history *)
(* ================================================================== *)







(* ================================================================== *)
(** ** Repetition and order together *)
(* ================================================================== *)

(** Two ways in which the occurrence test does not come first.  After
    [class('a')], a caught [element('x')], [element('y')] and
    [class('c')], the call [element('z')] repeats the element fragment and
    is out of order, and it is the order error that is raised.  And a
    [pseudoElement] rejected as a repetition has made the two assignments
    that open its order test, where [element] so rejected has touched
    nothing. *)
Lemma repetition_not_always_first :
  (let seed := create KClass "a" in
   let calls := [(KElement, "x"); (KElement, "y"); (KClass, "c")] in
   let this := attempts calls seed in
   appended calls seed = [(KElement, "y"); (KClass, "c")] /\
   stringify this = ".ay.c" /\
   rank KElement < rank KClass /\
   fst (invoke KElement "z" this) = Throw SequenceOrderError) /\
  (let this := create KPseudoElement "a" in
   fst (invoke KPseudoElement "b" this) = Throw DuplicateFragmentError /\
   prevSelector this = None /\
   prevSelector (snd (invoke KPseudoElement "b" this)) = Some "pseudoElement" /\
   snd (invoke KElement "b" (create KElement "a")) = create KElement "a").
Proof.
  split; intros; repeat split.
Qed.

Lemma In_occurrences (k : Kind) (ks : list Kind) :
  In k ks -> 0 < occurrences k ks.
Proof.
  induction ks as [|k' ks IH]; intro H; [destruct H|].
  rewrite occurrences_cons. pose proof (occurrences_nonneg k ks).
  destruct H as [-> | H].
  - replace (Kind_eqb k k) with true by (symmetry; now apply Kind_eqb_eq). lia.
  - specialize (IH H). destruct (Kind_eqb k k'); lia.
Qed.

(** C4, amended: [element] and [id] make their occurrence test first,
    before any assignment; [pseudoElement] makes it after its order test,
    which never fails.  After any history of calls, failed calls included,
    an [id] or a [pseudoElement] on a selector that already holds a
    fragment of that kind, and an [element] on an object made by the
    [element] entry point, raise the DuplicateFragmentError and not the
    SequenceOrderError, in order or out of order; [element] and [id] then
    leave the receiver untouched, [pseudoElement] leaves it with its two
    assignments made. *)
Theorem repetition_beats_order :
  forall (k0 : Kind) (v0 : string) (calls : list Call)
         (k : Kind) (value : string),
    let seed := create k0 v0 in
    let this := attempts calls seed in
    let fragments := k0 :: List.map fst (appended calls seed) in
    (k = KElement /\ k0 = KElement) \/
    (k = KId /\ In KId fragments) \/
    (k = KPseudoElement /\ In KPseudoElement fragments) ->
    fst (invoke k value this) = Throw DuplicateFragmentError /\
    fst (invoke k value this) <> Throw SequenceOrderError /\
    snd (invoke k value this)
    = match k with
      | KPseudoElement => recordAttempt k this
      | _ => this
      end.
Proof.
  intros k0 v0 calls k value seed this fragments H.
  assert (Hc : exists c, counter k this = Some c /\ 0 < c).
  { destruct (attempts_counters calls seed) as [Hi Hp].
    destruct (entry_fields k0 v0) as (_ & _ & Fe & Fi & Fp).
    fold seed in Fe, Fi, Fp.
    destruct H as [[-> ->] | [[-> Hin] | [-> Hin]]]; cbn [counter].
    - exists 1. split; [|lia]. f_equal. subst this.
      rewrite attempts_elementCount. exact Fe.
    - exists (idCount this). split; [reflexivity|].
      apply In_occurrences in Hin. subst fragments.
      rewrite occurrences_cons in Hin.
      destruct Hi as [E _]; [rewrite Fi; destruct (Kind_eqb KId k0); lia|].
      fold this in E. rewrite E, Fi. exact Hin.
    - exists (pseudoElemCount this). split; [reflexivity|].
      apply In_occurrences in Hin. subst fragments.
      rewrite occurrences_cons in Hin.
      destruct Hp as [E _];
        [rewrite Fp; destruct (Kind_eqb KPseudoElement k0); lia|].
      fold this in E. rewrite E, Fp. exact Hin. }
  destruct Hc as (c & Hc & Hpos).
  pose proof (counter_positive_throws k value this c Hc Hpos) as Hthrow.
  split; [exact Hthrow|]. split.
  - rewrite Hthrow. intro E. exact (errors_differ (Throw_inj _ _ E)).
  - destruct (invoke k value this) as [r this'] eqn:Hinv.
    simpl in Hthrow. subst r. cbn [snd].
    rewrite (invoke_throw_state k value this this' _ Hinv).
    destruct H as [[-> _] | [[-> _] | [-> _]]];
      cbn [guardedFirst counter] in *; injection Hc as <-;
      try now rewrite (gtb_true _ _ Hpos).
    reflexivity.
Qed.

(** [element('div').id('main').class('c')], then [id('x')]: a repetition,
    and out of order. *)
Lemma repetition_beats_order_witness :
  let seed := create KElement "div" in
  let calls := [(KId, "main"); (KClass, "c")] in
  let this := attempts calls seed in
  In KId (KElement :: List.map fst (appended calls seed)) /\
  rank KId < indexOf ORDER (Some (currentSelector this)) /\
  fst (invoke KId "x" this) = Throw DuplicateFragmentError /\
  fst (invoke KId "x" this) <> Throw SequenceOrderError /\
  snd (invoke KId "x" this) = this.
Proof.
  intros seed calls this.
  assert (Hin : In KId (KElement :: List.map fst (appended calls seed)))
    by (right; left; reflexivity).
  split; [exact Hin|]. split; [reflexivity|].
  apply (repetition_beats_order KElement "div" calls KId "x").
  right. left. split; [reflexivity | exact Hin].
Defined.
